(** * watchdog: a registry of named liveness checks and its supervision loop

    A shallow embedding of [watchdog.go] and the properties of its
    per-service check, its registry and its [Watch] loop.

    Conventions of the embedding:
    - an instant ([time.Time]) and a span ([time.Duration]) are integers of
      one unit (nanoseconds); [time.Now()] is an explicit argument [now];
    - a method with a pointer receiver takes the receiver's state and, when
      it may write it, returns the new state;
    - an [error] is [None] for [nil] and [Some msg] for [fmt.Errorf] with
      the text [msg];
    - [range] over a Go map visits the entries in an order the language
      leaves open: the visiting order is an argument, a permutation of the
      map's entries;
    - the mutex is not modelled: every method runs to its end before the
      next one starts; what other goroutines do to the system while [Watch]
      runs is an argument of [Watch], applied during its sleeps;
    - the source names three types it does not declare: [Service] is read
      as [WatchdogService], [Watchdog] as [WatchdogSystem] and
      [timeWatchdog] as [mapWatchdogSystem]. *)

From Stdlib Require Import ZArith String.
From stdpp Require Import base strings list gmap fin_maps.

Local Open Scope string_scope.
Local Open Scope Z_scope.

(** ** Time *)

Definition Time := Z.
Definition Duration := Z.

(** [t.Add(d)] *)
Definition Time_Add (t : Time) (d : Duration) : Time := t + d.

(** [t.After(u)]: [t] is strictly later than [u]. *)
Definition Time_After (t u : Time) : bool := u <? t.

(** ** The service interface *)

(** [type WatchdogService interface { Name() string; Whack(); Check() bool }].
    [Whack] and [Check] read the clock; both have a pointer receiver, so
    both hand back the receiver's state. *)
Class WatchdogService (Svc : Type) := {
  Name : Svc → string;
  Whack : Time → Svc → Svc;
  Check : Time → Svc → bool * Svc
}.

(** ** timeWatchdogService *)

Record timeWatchdogService := mkTimeWatchdogService {
  name : string;
  duration : Duration;
  expireAt : Time
}.

Definition timeWatchdogService_Name (s : timeWatchdogService) : string :=
  name s.

(** [s.expireAt = time.Now().Add(s.duration)] *)
Definition timeWatchdogService_Whack (now : Time) (s : timeWatchdogService)
  : timeWatchdogService :=
  {| name := name s;
     duration := duration s;
     expireAt := Time_Add now (duration s) |}.

(** [return time.Now().After(s.expireAt)] *)
Definition timeWatchdogService_Check (now : Time) (s : timeWatchdogService)
  : bool * timeWatchdogService :=
  (Time_After now (expireAt s), s).

#[export] Instance timeWatchdogService_WatchdogService
  : WatchdogService timeWatchdogService := {
  Name := timeWatchdogService_Name;
  Whack := timeWatchdogService_Whack;
  Check := timeWatchdogService_Check
}.

(** The constructor: the struct literal leaves [expireAt] at the zero
    instant, then [s.Whack()] arms it. *)
Definition TimeWatchdogService (nm : string) (d : Duration) (now : Time)
  : timeWatchdogService :=
  Whack now {| name := nm; duration := d; expireAt := 0 |}.

(** The constructor as the specification words it: a negative duration is
    refused. Used only to compare with [TimeWatchdogService]. *)
Inductive construction :=
  | Constructed (s : timeWatchdogService)
  | InvalidConfiguration.

Definition spec_NewTimedCheck (nm : string) (d : Duration) (now : Time)
  : construction :=
  if d <? 0 then InvalidConfiguration
  else Constructed {| name := nm; duration := d; expireAt := now + d |}.

(** Any number of calls of [Whack] and [Check] on one service. *)
Inductive call :=
  | CallWhack (now : Time)
  | CallCheck (now : Time).

Definition do_call (s : timeWatchdogService) (c : call) : timeWatchdogService :=
  match c with
  | CallWhack now => Whack now s
  | CallCheck now => (Check now s).2
  end.

Definition do_calls (s : timeWatchdogService) (cs : list call)
  : timeWatchdogService :=
  foldl do_call s cs.

(** The instant of the last [Whack] among the calls, if there is one. *)
Fixpoint last_whack (cs : list call) : option Time :=
  match cs with
  | [] => None
  | c :: rest =>
      match last_whack rest with
      | Some t => Some t
      | None =>
          match c with
          | CallWhack t => Some t
          | CallCheck _ => None
          end
      end
  end.

(** ** mapWatchdogSystem *)

Definition error := option string.

Section System.

Context {Svc : Type} `{WatchdogService Svc}.

(** Modelled from the spec: [Add] and [Remove] index a field [timeouts] that
    the struct does not declare; the struct's only map is [services], the
    one [Check] ranges over, and the specification has a single mapping of
    entries, so [timeouts] is read as [services]. *)
Record mapWatchdogSystem := mkMapWatchdogSystem {
  terminated : bool;
  services : gmap string Svc
}.

Definition MapWatchdogSystem : mapWatchdogSystem :=
  {| terminated := false; services := ∅ |}.

Definition Add (w : mapWatchdogSystem) (s : Svc) : mapWatchdogSystem :=
  {| terminated := terminated w;
     services := <[Name s := s]> (services w) |}.

Definition Remove (w : mapWatchdogSystem) (s : Svc) : mapWatchdogSystem :=
  {| terminated := terminated w;
     services := delete (Name s) (services w) |}.

(** [errors] after one more name is reported. *)
Definition append_name (errors nm : string) : string :=
  (if decide (errors ≠ "") then errors +:+ ", " else errors) +:+ nm.

(** One turn of the [for name, service := range w.services] loop: the state
    is the text so far and the map, in which the visited service is put
    back as [service.Check()] leaves it. *)
Definition Check_visit (now : Time) (st : string * gmap string Svc)
    (entry : string * Svc) : string * gmap string Svc :=
  let '(errors, m) := st in
  let '(nm, service) := entry in
  let '(expired, service') := Check now service in
  (if negb expired then append_name errors nm else errors,
   <[nm := service']> m).

Definition Check_range (now : Time) (order : list (string * Svc))
    (st : string * gmap string Svc) : string * gmap string Svc :=
  foldl (Check_visit now) st order.

Definition Check_prefix : string :=
  "Watchdog timed out on the following services: ".

(** [Check]: [order] is the order in which [range] visits the entries. *)
Definition mapWatchdogSystem_Check (order : list (string * Svc)) (now : Time)
    (w : mapWatchdogSystem) : error * mapWatchdogSystem :=
  let '(errors, m) := Check_range now order ("", services w) in
  (if decide (errors ≠ "") then Some (Check_prefix +:+ errors) else None,
   {| terminated := terminated w; services := m |}).

Definition Terminate (w : mapWatchdogSystem) : mapWatchdogSystem :=
  {| terminated := true; services := services w |}.

(** The names one pass over [order] adds to [errors], in the order of the
    pass: those of the entries that pass the test [!service.Check()]. *)
Definition reported (now : Time) (order : list (string * Svc)) : list string :=
  (filter (λ entry, (Check now entry.2).1 = false) order).*1.

End System.

Arguments mapWatchdogSystem Svc : clear implicits.

(** ** The text of the failure *)

(** Once [errors] holds a name, each further name comes after a comma and
    a space. *)
Definition name_tail (names : list string) : string :=
  foldr (λ nm acc, ", " +:+ nm +:+ acc) "" names.

(** The empty names [errors] swallows while it is still empty. *)
Fixpoint drop_empty (names : list string) : list string :=
  match names with
  | [] => []
  | nm :: rest => if decide (nm = "") then drop_empty rest else names
  end.

(** ** The supervision loop *)

Section Supervision.

Context {Svc : Type} `{WatchdogService Svc}.

(** What [Watch] runs in: the clock and the system it supervises. *)
Record world := mkWorld {
  clock : Time;
  system : mapWatchdogSystem Svc
}.

(** What [Watch] does, in the order it does it. *)
Inductive event :=
  | CheckEv (err : error)
  | SleepEv (period : Duration).

Inductive outcome :=
  | Running
  | Returned (err : error).

(** [range turn m]: the order in which the [range] of the [turn]-th [Check]
    visits [m]. *)
Variable range : nat → gmap string Svc → list (string * Svc).

(** [env turn]: what the other goroutines (monitored components whacking
    their service, callers of [Add], [Remove] and [Terminate]) and the
    clock's own drift do to the world during the [turn]-th sleep. *)
Variable env : nat → world → world.

(** [time.Sleep(period)]: returns at once for a period that is not
    positive. *)
Definition Sleep (period : Duration) (w : world) : world :=
  {| clock := clock w + Z.max 0 period; system := system w |}.

(** [Watch]: [fuel] bounds the number of turns of the [for] loop that are
    run; [Running] is the loop that has not returned within them. *)
Fixpoint Watch (fuel : nat) (period : Duration) (turn : nat) (w : world)
  : outcome * world * list event :=
  match fuel with
  | O => (Running, w, [])
  | S fuel' =>
      if terminated (system w) then (Returned None, w, [])
      else
        let '(err, sys') :=
          mapWatchdogSystem_Check (range turn (services (system w)))
            (clock w) (system w) in
        let w' := {| clock := clock w; system := sys' |} in
        match err with
        | Some msg => (Returned (Some msg), w', [CheckEv (Some msg)])
        | None =>
            let '(r, w'', tr) :=
              Watch fuel' period (S turn) (env turn (Sleep period w')) in
            (r, w'', CheckEv None :: SleepEv period :: tr)
        end
  end.

(** The world after the check of a turn of [Watch], and after the sleep
    that follows a check that passed. *)
Definition checked (turn : nat) (w : world) : world :=
  {| clock := clock w;
     system := (mapWatchdogSystem_Check (range turn (services (system w)))
                  (clock w) (system w)).2 |}.

Definition slept (period : Duration) (turn : nat) (w : world) : world :=
  env turn (Sleep period (checked turn w)).

(** [k] turns in which the check passed and the loop slept. *)
Fixpoint quiet_turns (period : Duration) (k : nat) : list event :=
  match k with
  | O => []
  | S k' => CheckEv None :: SleepEv period :: quiet_turns period k'
  end.

End Supervision.

Arguments world Svc : clear implicits.

(** How many times a run slept. *)
Fixpoint sleeps (tr : list event) : nat :=
  match tr with
  | [] => O
  | SleepEv _ :: rest => S (sleeps rest)
  | CheckEv _ :: rest => sleeps rest
  end.

(** ** The failure text as the specification words it *)




(** * Properties *)

(** ** timeWatchdogService *)

Lemma Time_After_lt (t u : Time) : Time_After t u = true ↔ u < t.
Proof. unfold Time_After. apply Z.ltb_lt. Qed.

Lemma TimeWatchdogService_fields (nm : string) (d : Duration) (now : Time) :
  TimeWatchdogService nm d now
  = {| name := nm; duration := d; expireAt := now + d |}.
Proof. reflexivity. Qed.

Lemma Whack_duration (t : Time) (s : timeWatchdogService) :
  duration (Whack t s) = duration s.
Proof. reflexivity. Qed.

Lemma Check_at_Whack (t : Time) (s : timeWatchdogService) :
  (Check t (Whack t s)).1 = (duration s <? 0).
Proof.
  cbn. unfold Time_After, Time_Add.
  destruct (Z.ltb_spec (duration s) 0), (Z.ltb_spec (t + duration s) t);
    (reflexivity || lia).
Qed.

(** C2: [Check] of a timed service answers true exactly when the instant of
    the call is strictly after [expireAt], it leaves the service as it was,
    and [expireAt] is the instant of the last [Whack] plus the duration. *)
Theorem timeWatchdogService_Check_strict_pure
    (s : timeWatchdogService) (now t0 : Time) :
  ((Check now s).1 = true ↔ expireAt s < now)
  ∧ (Check now s).2 = s
  ∧ expireAt (Whack t0 s) = t0 + duration s
  ∧ ((Check now (Whack t0 s)).1 = true ↔ t0 + duration s < now).
Proof.
  repeat split; try apply Time_After_lt; intros Hlt; cbn in *;
    by apply Time_After_lt.
Qed.

(** C6, as the specification words it, fails: a negative duration is
    accepted and a service is built. *)
Lemma TimeWatchdogService_negative_accepted :
  TimeWatchdogService "db" (-1) 0
  = {| name := "db"; duration := -1; expireAt := -1 |}
  ∧ spec_NewTimedCheck "db" (-1) 0 = InvalidConfiguration
  ∧ Constructed (TimeWatchdogService "db" (-1) 0)
    ≠ spec_NewTimedCheck "db" (-1) 0.
Proof. repeat split. discriminate. Qed.

(** C6, amended: the constructor never fails; for every duration, negative ones
    included, it builds the service with that duration and [expireAt] at
    the instant of construction plus the duration, so a service built with
    a negative duration is expired at once; for the other durations it
    builds what the specification asks for. *)
Theorem TimeWatchdogService_total (nm : string) (d : Duration) (now : Time) :
  TimeWatchdogService nm d now
  = {| name := nm; duration := d; expireAt := now + d |}
  ∧ (Check now (TimeWatchdogService nm d now)).1 = (d <? 0)
  ∧ spec_NewTimedCheck nm d now
    = (if d <? 0 then InvalidConfiguration
       else Constructed (TimeWatchdogService nm d now)).
Proof.
  split; [reflexivity | split].
  - apply (Check_at_Whack now {| name := nm; duration := d; expireAt := 0 |}).
  - reflexivity.
Qed.

(** C7, as the specification words it, fails: a service with a negative
    duration is expired at the very instant of its construction and of a
    [Whack]. *)
Lemma fresh_negative_duration_expired :
  (Check 0 (TimeWatchdogService "db" (-1) 0)).1 = true
  ∧ (Check 7 (Whack 7 (TimeWatchdogService "db" (-1) 0))).1 = true.
Proof. split; reflexivity. Qed.

(** C7, amended: for a duration that is not negative, zero included,
    [Check] at the instant of construction, and at the instant of any later
    [Whack], answers false. *)
Theorem fresh_check_not_expired
    (nm : string) (d : Duration) (now t : Time) (s : timeWatchdogService) :
  0 ≤ d →
  0 ≤ duration s →
  (Check now (TimeWatchdogService nm d now)).1 = false
  ∧ (Check t (Whack t s)).1 = false
  ∧ (Check t (Whack t (TimeWatchdogService nm d now))).1 = false.
Proof.
  intros Hd Hs. rewrite !Check_at_Whack.
  unfold TimeWatchdogService. rewrite Check_at_Whack. cbn.
  repeat split; apply Z.ltb_ge; assumption.
Qed.

Lemma fresh_check_not_expired_zero :
  (Check 3 (TimeWatchdogService "db" 0 3)).1 = false
  ∧ (Check 9 (Whack 9 (TimeWatchdogService "db" 0 3))).1 = false.
Proof.
  pose proof (fresh_check_not_expired "db" 0 3 9
                (TimeWatchdogService "db" 0 3)) as Hfresh.
  destruct Hfresh as (Hnew & Hwhack & _); [lia | cbn; lia |].
  split; [exact Hnew | exact Hwhack].
Defined.

(** C9, as the specification words it, fails: the constructor accepts the
    empty name. *)
Lemma TimeWatchdogService_empty_name :
  Name (TimeWatchdogService "" 5 0) = "".
Proof. reflexivity. Qed.

Lemma do_call_Name (s : timeWatchdogService) (c : call) :
  Name (do_call s c) = Name s.
Proof. destruct c; reflexivity. Qed.

(** C9, amended: [Name] answers the string the constructor was given, whatever
    it is (the empty string is not refused), and goes on answering it
    after any calls of [Whack] and [Check]. *)
Theorem Name_stable
    (nm : string) (d : Duration) (now : Time) (cs : list call) :
  Name (TimeWatchdogService nm d now) = nm
  ∧ Name (do_calls (TimeWatchdogService nm d now) cs) = nm.
Proof.
  split; [reflexivity |].
  unfold do_calls.
  induction cs as [| c cs IH] using rev_ind; [reflexivity |].
  rewrite foldl_app. cbn [foldl]. rewrite do_call_Name. exact IH.
Qed.

(** ** The text [Check] builds *)

Lemma append_name_empty (nm : string) : append_name "" nm = nm.
Proof. reflexivity. Qed.

Lemma string_app_cons (a : Ascii.ascii) (s1 s2 : string) :
  String a s1 +:+ s2 = String a (s1 +:+ s2).
Proof. reflexivity. Qed.

Lemma string_app_assoc (s1 s2 s3 : string) :
  (s1 +:+ s2) +:+ s3 = s1 +:+ (s2 +:+ s3).
Proof.
  induction s1 as [| a s1 IH]; [reflexivity |].
  by rewrite !string_app_cons, IH.
Qed.

Lemma string_app_empty_r (s : string) : s +:+ "" = s.
Proof.
  induction s as [| a s IH]; [reflexivity |].
  by rewrite string_app_cons, IH.
Qed.

Lemma append_name_nonempty (errors nm : string) :
  errors ≠ "" → append_name errors nm = errors +:+ ", " +:+ nm.
Proof.
  intros Hne. unfold append_name.
  destruct (decide (errors ≠ "")) as [_ | Hemp]; [| contradiction].
  apply string_app_assoc.
Qed.

Lemma append_nonempty_l (s1 s2 : string) : s1 ≠ "" → s1 +:+ s2 ≠ "".
Proof. destruct s1; [contradiction | discriminate]. Qed.

Lemma foldl_append_name_nonempty (errors : string) (names : list string) :
  errors ≠ "" →
  foldl append_name errors names = errors +:+ name_tail names.
Proof.
  revert errors. induction names as [| nm names IH]; intros errors Hne; cbn.
  - by rewrite string_app_empty_r.
  - rewrite append_name_nonempty by assumption.
    rewrite IH by (by apply append_nonempty_l).
    by rewrite !string_app_assoc.
Qed.

Lemma concat_name_tail (nm : string) (names : list string) :
  String.concat ", " (nm :: names) = nm +:+ name_tail names.
Proof.
  revert nm. induction names as [| nm' names IH]; intros nm.
  - cbn. by rewrite string_app_empty_r.
  - change (String.concat ", " (nm :: nm' :: names))
      with (nm +:+ ", " +:+ String.concat ", " (nm' :: names)).
    rewrite IH. reflexivity.
Qed.

Lemma foldl_append_name_empty (names : list string) :
  foldl append_name "" names = String.concat ", " (drop_empty names).
Proof.
  induction names as [| nm names IH]; [reflexivity |].
  cbn [foldl drop_empty]. rewrite append_name_empty.
  destruct (decide (nm = "")) as [-> | Hne]; [exact IH |].
  rewrite foldl_append_name_nonempty by assumption.
  by rewrite concat_name_tail.
Qed.


Lemma drop_empty_nil (names : list string) :
  String.concat ", " (drop_empty names) = "" ↔ Forall (λ nm, nm = "") names.
Proof.
  induction names as [| nm names IH]; [by split |].
  cbn [drop_empty]. destruct (decide (nm = "")) as [-> | Hne].
  - rewrite IH. split; [by constructor | by inversion 1].
  - rewrite concat_name_tail. split.
    + intros Heq. by destruct nm.
    + inversion 1; contradiction.
Qed.

(** ** The registry *)

Section Registry.

Context {Svc : Type} `{WatchdogService Svc}.

Implicit Types (w : mapWatchdogSystem Svc) (m : gmap string Svc).
Implicit Types (order : list (string * Svc)) (now : Time).

Lemma Check_visit_errors now errors m (nm : string) (s : Svc) :
  (Check_visit now (errors, m) (nm, s)).1
  = if decide ((Check now s).1 = false) then append_name errors nm
    else errors.
Proof.
  unfold Check_visit. destruct (Check now s) as [expired s']. cbn.
  by destruct expired.
Qed.

Lemma Check_visit_services now errors m (nm : string) (s : Svc) :
  (Check_visit now (errors, m) (nm, s)).2 = <[nm := (Check now s).2]> m.
Proof. unfold Check_visit. by destruct (Check now s) as [expired s']. Qed.

Lemma Check_range_errors now order errors m :
  (Check_range now order (errors, m)).1
  = foldl append_name errors (reported now order).
Proof.
  unfold Check_range, reported.
  revert errors m. induction order as [| [nm s] order IH]; intros errors m.
  - reflexivity.
  - cbn [foldl]. rewrite filter_cons.
    pose proof (Check_visit_errors now errors m nm s) as Hvisit.
    destruct (Check_visit now (errors, m) (nm, s)) as [errors' m'].
    cbn in Hvisit. subst errors'. rewrite IH. cbn [snd].
    by destruct (decide ((Check now s).1 = false)).
Qed.

(** The error [Check] answers, from the names it reports. *)
Lemma Check_error now order w :
  (mapWatchdogSystem_Check order now w).1
  = if decide (foldl append_name "" (reported now order) ≠ "")
    then Some (Check_prefix +:+ foldl append_name "" (reported now order))
    else None.
Proof.
  unfold mapWatchdogSystem_Check.
  pose proof (Check_range_errors now order "" (services w)) as Herr.
  destruct (Check_range now order ("", services w)) as [errors m].
  cbn in Herr. subst errors. by case_decide.
Qed.


Lemma reported_elem now order (nm : string) :
  nm ∈ reported now order
  ↔ ∃ s, (nm, s) ∈ order ∧ (Check now s).1 = false.
Proof.
  unfold reported. rewrite list_elem_of_fmap. split.
  - intros ([nm' s] & -> & Hin). apply list_elem_of_filter in Hin.
    exists s. by destruct Hin.
  - intros (s & Hin & Hfalse). exists (nm, s). split; [reflexivity |].
    by apply list_elem_of_filter.
Qed.

Lemma order_lookup order m (nm : string) (s : Svc) :
  order ≡ₚ map_to_list m → (nm, s) ∈ order ↔ m !! nm = Some s.
Proof. intros Hperm. rewrite Hperm. apply elem_of_map_to_list. Qed.

(** What the code does: [Check] answers [nil] exactly when every entry
    with a name that is not empty answers true to [service.Check()]. *)
Lemma Check_nil_iff now order w :
  order ≡ₚ map_to_list (services w) →
  (mapWatchdogSystem_Check order now w).1 = None
  ↔ ∀ (nm : string) (s : Svc),
      services w !! nm = Some s → nm ≠ "" → (Check now s).1 = true.
Proof.
  intros Hperm. rewrite Check_error, foldl_append_name_empty.
  split.
  - intros Hnone nm s Hlook Hne.
    destruct (decide (String.concat ", " (drop_empty (reported now order)) ≠ ""))
      as [| Hemp]; [discriminate |].
    apply dec_stable in Hemp. apply drop_empty_nil in Hemp.
    destruct ((Check now s).1) eqn:Hchk; [reflexivity | exfalso].
    apply Hne. eapply (proj1 (Forall_forall _ _) Hemp).
    apply reported_elem. exists s. split; [| exact Hchk].
    by apply (order_lookup order (services w)).
  - intros Hall. case_decide as Hdec; [exfalso | reflexivity].
    apply Hdec. apply drop_empty_nil. apply Forall_forall.
    intros nm Hin. apply reported_elem in Hin as (s & Hin & Hfalse).
    apply (order_lookup order (services w)) in Hin; [| assumption].
    destruct (decide (nm = "")) as [| Hne]; [assumption |].
    rewrite (Hall nm s Hin Hne) in Hfalse. discriminate.
Qed.

(** The pass leaves the map alone when [service.Check()] leaves every
    service alone. *)
Lemma Check_range_frame now order errors m :
  (∀ t (s : Svc), (Check t s).2 = s) →
  (∀ (nm : string) (s : Svc), (nm, s) ∈ order → m !! nm = Some s) →
  (Check_range now order (errors, m)).2 = m.
Proof.
  intros Hpure. unfold Check_range. revert errors.
  induction order as [| [nm s] order IH]; intros errors Hin; [reflexivity |].
  cbn [foldl].
  pose proof (Check_visit_services now errors m nm s) as Hvisit.
  destruct (Check_visit now (errors, m) (nm, s)) as [errors' m'].
  cbn in Hvisit. subst m'. rewrite Hpure.
  rewrite insert_id by (apply Hin; left).
  apply IH. intros nm' s' Hin'. apply Hin. by right.
Qed.

Lemma Check_frame_pure now order w :
  (∀ t (s : Svc), (Check t s).2 = s) →
  order ≡ₚ map_to_list (services w) →
  (mapWatchdogSystem_Check order now w).2 = w.
Proof.
  intros Hpure Hperm. unfold mapWatchdogSystem_Check.
  pose proof (Check_range_frame now order "" (services w) Hpure) as Hframe.
  destruct (Check_range now order ("", services w)) as [errors m].
  cbn in *. rewrite Hframe; [by destruct w |].
  intros nm s Hin. by apply (order_lookup order (services w)).
Qed.





End Registry.

(** C1 fails on the code, which reports the services that have not
    expired: with one service, not expired at instant 0 and expired at
    instant 60, [Check] fails at 0, naming it, and succeeds at 60. *)
Theorem Check_polarity_inverted :
  let db := TimeWatchdogService "db" 50 0 in
  let w := Add MapWatchdogSystem db in
  map_to_list (services w) = [("db", db)]
  ∧ (Check 0 db).1 = false
  ∧ (mapWatchdogSystem_Check [("db", db)] 0 w).1
    = Some "Watchdog timed out on the following services: db"
  ∧ (Check 60 db).1 = true
  ∧ (mapWatchdogSystem_Check [("db", db)] 60 w).1 = None.
Proof.
  cbv zeta. split; [| repeat split].
  unfold Add, MapWatchdogSystem. cbn [services].
  rewrite insert_empty. apply map_to_list_singleton.
Qed.

Lemma two_services_order :
  [("b", TimeWatchdogService "b" 50 0); ("a", TimeWatchdogService "a" 50 0)]
  ≡ₚ map_to_list
       (services
          (Add (Add MapWatchdogSystem (TimeWatchdogService "a" 50 0))
             (TimeWatchdogService "b" 50 0))).
Proof.
  unfold Add, MapWatchdogSystem. cbn [services Name].
  rewrite map_to_list_insert by reflexivity.
  apply Permutation_skip.
  by rewrite insert_empty, map_to_list_singleton.
Qed.


(** C10: [Check] leaves the system as it found it, whether it fails or not:
    the same entries, each service with the [expireAt] it had, the same
    [terminated]. *)
Theorem Check_leaves_system
    (order : list (string * timeWatchdogService)) (now : Time)
    (w : mapWatchdogSystem timeWatchdogService) :
  order ≡ₚ map_to_list (services w) →
  (mapWatchdogSystem_Check order now w).2 = w.
Proof. intros Hperm. by apply Check_frame_pure. Qed.



Lemma Check_leaves_system_two_services :
  (mapWatchdogSystem_Check
     [("b", TimeWatchdogService "b" 50 0); ("a", TimeWatchdogService "a" 50 0)]
     60
     (Add (Add MapWatchdogSystem (TimeWatchdogService "a" 50 0))
        (TimeWatchdogService "b" 50 0))).2
  = Add (Add MapWatchdogSystem (TimeWatchdogService "a" 50 0))
      (TimeWatchdogService "b" 50 0).
Proof.
  apply (Check_leaves_system
           [("b", TimeWatchdogService "b" 50 0);
            ("a", TimeWatchdogService "a" 50 0)] 60).
  exact two_services_order.
Defined.

(** ** The supervision loop *)

Section SupervisionFacts.

Context {Svc : Type} `{WatchdogService Svc}.

Variable range : nat → gmap string Svc → list (string * Svc).
Variable env : nat → world Svc → world Svc.

Implicit Types (wd : world Svc) (w : mapWatchdogSystem Svc).

Lemma Terminate_terminated w : terminated (Terminate w) = true.
Proof. reflexivity. Qed.

Lemma Terminate_Terminate w : Terminate (Terminate w) = Terminate w.
Proof. reflexivity. Qed.

Lemma Terminate_iter (n : nat) w :
  Nat.iter (S n) Terminate w = Terminate w.
Proof.
  induction n as [| n IH]; [reflexivity |].
  change (Nat.iter (S (S n)) Terminate w)
    with (Terminate (Nat.iter (S n) Terminate w)).
  by rewrite IH, Terminate_Terminate.
Qed.

Lemma Watch_terminated (fuel : nat) (period : Duration) (turn : nat) wd :
  terminated (system wd) = true →
  Watch range env (S fuel) period turn wd = (Returned None, wd, []).
Proof. intros Hterm. cbn. by rewrite Hterm. Qed.

Lemma Watch_failed_check
    (fuel : nat) (period : Duration) (turn : nat) wd (msg : string) :
  terminated (system wd) = false →
  (mapWatchdogSystem_Check (range turn (services (system wd)))
     (clock wd) (system wd)).1 = Some msg →
  Watch range env (S fuel) period turn wd
  = (Returned (Some msg),
     {| clock := clock wd;
        system := (mapWatchdogSystem_Check
                     (range turn (services (system wd)))
                     (clock wd) (system wd)).2 |},
     [CheckEv (Some msg)]).
Proof.
  intros Hterm Hfail. cbn [Watch]. rewrite Hterm.
  destruct (mapWatchdogSystem_Check _ _ _) as [err sys'].
  cbn in Hfail. by subst err.
Qed.

Lemma Watch_passed_check (fuel : nat) (period : Duration) (turn : nat) wd :
  terminated (system wd) = false →
  (mapWatchdogSystem_Check (range turn (services (system wd)))
     (clock wd) (system wd)).1 = None →
  (Watch range env (S fuel) period turn wd).2
  = CheckEv None :: SleepEv period
      :: (Watch range env fuel period (S turn)
            (env turn
               (Sleep period
                  {| clock := clock wd;
                     system := (mapWatchdogSystem_Check
                                  (range turn (services (system wd)))
                                  (clock wd) (system wd)).2 |}))).2.
Proof.
  intros Hterm Hpass. cbn [Watch]. rewrite Hterm.
  destruct (mapWatchdogSystem_Check _ _ _) as [err sys'].
  cbn in Hpass. subst err. cbn [snd].
  by destruct (Watch range env fuel period (S turn) _) as [[r wd'] tr].
Qed.

(** The trace of a run: turns in which the check passed, then, only when
    the run returned a failure, the one check that failed. *)
Lemma Watch_trace (fuel : nat) (period : Duration) (turn : nat) wd :
  ∃ k : nat, (k ≤ fuel)%nat ∧
    match (Watch range env fuel period turn wd).1.1 with
    | Returned (Some msg) =>
        (Watch range env fuel period turn wd).2
        = (quiet_turns period k ++ [CheckEv (Some msg)])%list
    | _ => (Watch range env fuel period turn wd).2 = quiet_turns period k
    end.
Proof.
  revert turn wd. induction fuel as [| fuel IH]; intros turn wd.
  - exists 0%nat. by split.
  - cbn [Watch]. destruct (terminated (system wd)).
    + exists 0%nat. split; [lia | reflexivity].
    + destruct (mapWatchdogSystem_Check _ _ _) as [[msg |] sys'].
      * exists 0%nat. split; [lia | reflexivity].
      * specialize (IH (S turn)
                      (env turn (Sleep period
                                   {| clock := clock wd; system := sys' |}))).
        destruct IH as (k & Hk & IH).
        destruct (Watch range env fuel period (S turn) _) as [[r wd'] tr].
        exists (S k). split; [lia |]. cbn in *.
        destruct r as [| [msg |]]; by rewrite IH.
Qed.

(** C3: a run of [Watch] checks, and sleeps after a check that passed; a
    check that fails is the last thing the run does, and its failure is
    what the run returns: no check and no sleep follows it. *)
Theorem Watch_fail_fast (fuel : nat) (period : Duration) (turn : nat) wd :
  (∃ k : nat,
     match (Watch range env fuel period turn wd).1.1 with
     | Returned (Some msg) =>
         (Watch range env fuel period turn wd).2
         = (quiet_turns period k ++ [CheckEv (Some msg)])%list
     | _ => (Watch range env fuel period turn wd).2 = quiet_turns period k
     end)
  ∧ (∀ msg : string,
       terminated (system wd) = false →
       (mapWatchdogSystem_Check (range turn (services (system wd)))
          (clock wd) (system wd)).1 = Some msg →
       (Watch range env (S fuel) period turn wd).1.1 = Returned (Some msg)
       ∧ (Watch range env (S fuel) period turn wd).2 = [CheckEv (Some msg)])
  ∧ (terminated (system wd) = false →
     (mapWatchdogSystem_Check (range turn (services (system wd)))
        (clock wd) (system wd)).1 = None →
     (Watch range env (S fuel) period turn wd).2
     = CheckEv None :: SleepEv period
         :: (Watch range env fuel period (S turn)
               (env turn
                  (Sleep period
                     {| clock := clock wd;
                        system := (mapWatchdogSystem_Check
                                     (range turn (services (system wd)))
                                     (clock wd) (system wd)).2 |}))).2).
Proof.
  split; [| split].
  - destruct (Watch_trace fuel period turn wd) as (k & _ & Htrace).
    by exists k.
  - intros msg Hterm Hfail.
    by rewrite (Watch_failed_check fuel period turn wd msg Hterm Hfail).
  - intros Hterm Hpass.
    by rewrite (Watch_passed_check fuel period turn wd Hterm Hpass).
Qed.

(** C4: [Terminate] any number of times is [Terminate] once, and [Watch]
    started after it returns [nil] at once, without a check. *)
Theorem Terminate_idempotent_Watch_returns
    (n fuel : nat) (period : Duration) (turn : nat) (clk : Time) w :
  Nat.iter (S n) Terminate w = Terminate w
  ∧ terminated (Terminate w) = true
  ∧ services (Terminate w) = services w
  ∧ Watch range env (S fuel) period turn
      {| clock := clk; system := Nat.iter (S n) Terminate w |}
    = (Returned None, {| clock := clk; system := Terminate w |}, []).
Proof.
  split; [apply Terminate_iter | split; [reflexivity | split; [reflexivity |]]].
  rewrite Terminate_iter. by apply Watch_terminated.
Qed.

End SupervisionFacts.

(** A run in which the first check passes and the second fails: the
    service is whacked by its owner during the sleep. *)
Example Watch_two_turns :
  let db := TimeWatchdogService "db" 50 0 in
  let whack_db (turn : nat) (wd : world timeWatchdogService) :=
    {| clock := clock wd;
       system := Add (system wd) (Whack (clock wd) db) |} in
  let '(r, _, tr) :=
    Watch (λ _ m, map_to_list m) whack_db 5 10 0
      {| clock := 60; system := Add MapWatchdogSystem db |} in
  r = Returned (Some "Watchdog timed out on the following services: db")
  ∧ tr = [CheckEv None; SleepEv 10;
          CheckEv (Some "Watchdog timed out on the following services: db")].
Proof. vm_compute. by split. Qed.

Lemma Watch_fail_fast_run :
  (Watch (λ _ m, map_to_list m) (λ _ wd, wd) 1 10 0
     {| clock := 0;
        system := Add MapWatchdogSystem (TimeWatchdogService "db" 50 0) |}).2
  = [CheckEv (Some "Watchdog timed out on the following services: db")].
Proof.
  refine (proj2
    (proj1
       (proj2
          (Watch_fail_fast (λ _ m, map_to_list m) (λ _ wd, wd) 0 10 0
             {| clock := 0;
                system := Add MapWatchdogSystem
                            (TimeWatchdogService "db" 50 0) |}))
       "Watchdog timed out on the following services: db" _ _)).
  - reflexivity.
  - vm_compute. reflexivity.
Defined.

(** * Further properties *)

(** ** A service over its history *)

Lemma do_call_duration (s : timeWatchdogService) (c : call) :
  duration (do_call s c) = duration s.
Proof. destruct c; reflexivity. Qed.

(** X1: whatever calls of [Whack] and [Check] a service has seen, its
    duration is the one it was built with and its [expireAt] is the instant
    of the last [Whack] plus that duration ([Check] never moves it); without
    a [Whack] it is the [expireAt] the service started with. *)
Theorem deadline_after_calls (s : timeWatchdogService) (cs : list call) :
  duration (do_calls s cs) = duration s
  ∧ expireAt (do_calls s cs)
    = match last_whack cs with
      | Some t => t + duration s
      | None => expireAt s
      end.
Proof.
  unfold do_calls. revert s.
  induction cs as [| c cs IH]; intros s; [by split |].
  cbn [foldl last_whack].
  destruct (IH (do_call s c)) as [Hdur Hexp].
  rewrite Hdur, Hexp, do_call_duration.
  split; [reflexivity |].
  destruct (last_whack cs) as [t |]; [reflexivity |].
  by destruct c.
Qed.

(** X2: a service that [Check] finds expired at one instant is found
    expired at every later instant, as long as it is not whacked. *)
Theorem expired_stays_expired (s : timeWatchdogService) (t1 t2 : Time) :
  t1 ≤ t2 →
  (Check t1 s).1 = true →
  (Check t2 (Check t1 s).2).1 = true.
Proof.
  intros Hle Hexp. cbn in *. apply Time_After_lt in Hexp.
  apply Time_After_lt. lia.
Qed.

Lemma expired_stays_expired_db :
  (Check 80 (Check 60 (TimeWatchdogService "db" 50 0)).2).1 = true.
Proof.
  apply (expired_stays_expired (TimeWatchdogService "db" 50 0) 60 80).
  - lia.
  - reflexivity.
Defined.

(** ** Adding and removing *)

Section RegistryOperations.

Context {Svc : Type} `{WatchdogService Svc}.

Implicit Types (w : mapWatchdogSystem Svc) (s : Svc) (nm : string).

Lemma system_eq w1 w2 :
  terminated w1 = terminated w2 → services w1 = services w2 → w1 = w2.
Proof. destruct w1, w2. cbn. by intros -> ->. Qed.

(** X3: [Remove] undoes [Add]: removing, by any service of the same name,
    what was added under a name the registry did not hold gives back the
    registry as it was. *)
Theorem Remove_Add_fresh w s s' :
  Name s' = Name s →
  services w !! Name s = None →
  Remove (Add w s) s' = w.
Proof.
  intros Hname Hfresh. apply system_eq; [reflexivity |].
  cbn. rewrite Hname. by apply delete_insert_id.
Qed.

(** X4: [Remove] of a name the registry does not hold changes nothing. *)
Theorem Remove_absent w s :
  services w !! Name s = None → Remove w s = w.
Proof.
  intros Habsent. apply system_eq; [reflexivity |].
  cbn. by apply delete_id.
Qed.

(** X5: [Remove] goes by the name alone: after it the registry holds no
    entry of that name, whichever service was registered under it, and a
    second [Remove] changes nothing. *)
Theorem Remove_by_name w s :
  services (Remove w s) !! Name s = None
  ∧ (∀ s', Name s' = Name s → services (Remove (Add w s') s) !! Name s' = None)
  ∧ Remove (Remove w s) s = Remove w s.
Proof.
  split; [apply lookup_delete_eq | split].
  - intros s' Hname. cbn. rewrite Hname. apply lookup_delete_eq.
  - apply system_eq; [reflexivity |]. cbn. apply delete_delete_eq.
Qed.

(** X6: [Add] and [Remove] touch one name: the entry of every other name,
    and [terminated], are as before. *)
Theorem Add_Remove_other w s nm :
  nm ≠ Name s →
  services (Add w s) !! nm = services w !! nm
  ∧ services (Remove w s) !! nm = services w !! nm
  ∧ terminated (Add w s) = terminated w
  ∧ terminated (Remove w s) = terminated w.
Proof.
  intros Hne. repeat split.
  - by apply lookup_insert_ne.
  - by apply lookup_delete_ne.
Qed.

(** X7: services added under different names do not disturb each other:
    the order of the two [Add] does not matter. *)
Theorem Add_Add_comm w s1 s2 :
  Name s1 ≠ Name s2 →
  Add (Add w s1) s2 = Add (Add w s2) s1.
Proof.
  intros Hne. apply system_eq; [reflexivity |].
  cbn. by apply insert_insert_ne.
Qed.

(** X8: the number of entries: [Add] adds one when the name is new and
    none when it replaces; [Remove] takes one away when the name is held
    and none otherwise. *)
Theorem entries_count w s :
  size (services (Add w s))
  = match services w !! Name s with
    | Some _ => size (services w)
    | None => S (size (services w))
    end
  ∧ size (services (Remove w s))
    = match services w !! Name s with
      | Some _ => Nat.pred (size (services w))
      | None => size (services w)
      end.
Proof.
  cbn. destruct (services w !! Name s) as [s0 |] eqn:Hlook; split.
  - by apply map_size_insert_Some.
  - by apply map_size_delete_Some.
  - by apply map_size_insert_None.
  - by apply map_size_delete_None.
Qed.

End RegistryOperations.

Lemma Remove_Add_fresh_db :
  Remove (Add MapWatchdogSystem (TimeWatchdogService "db" 50 0))
    (TimeWatchdogService "db" 7 3)
  = MapWatchdogSystem.
Proof.
  apply (Remove_Add_fresh MapWatchdogSystem
           (TimeWatchdogService "db" 50 0) (TimeWatchdogService "db" 7 3));
    reflexivity.
Defined.

Lemma Remove_absent_db :
  Remove (Add MapWatchdogSystem (TimeWatchdogService "a" 50 0))
    (TimeWatchdogService "db" 50 0)
  = Add MapWatchdogSystem (TimeWatchdogService "a" 50 0).
Proof.
  apply (Remove_absent (Add MapWatchdogSystem (TimeWatchdogService "a" 50 0))
           (TimeWatchdogService "db" 50 0)).
  vm_compute. reflexivity.
Defined.

Lemma Add_Remove_other_db :
  services
    (Remove (Add MapWatchdogSystem (TimeWatchdogService "a" 50 0))
       (TimeWatchdogService "db" 50 0)) !! "a"
  = services (Add MapWatchdogSystem (TimeWatchdogService "a" 50 0)) !! "a".
Proof.
  refine (proj1 (proj2
    (Add_Remove_other (Add MapWatchdogSystem (TimeWatchdogService "a" 50 0))
       (TimeWatchdogService "db" 50 0) "a" _))).
  discriminate.
Defined.

Lemma Add_Add_comm_a_b :
  Add (Add MapWatchdogSystem (TimeWatchdogService "a" 50 0))
    (TimeWatchdogService "b" 50 0)
  = Add (Add MapWatchdogSystem (TimeWatchdogService "b" 50 0))
      (TimeWatchdogService "a" 50 0).
Proof.
  apply (Add_Add_comm MapWatchdogSystem (TimeWatchdogService "a" 50 0)
           (TimeWatchdogService "b" 50 0)).
  discriminate.
Defined.

(** ** What [Check] answers *)

Section CheckOutcome.

Context {Svc : Type} `{WatchdogService Svc}.

Implicit Types (w : mapWatchdogSystem Svc) (now : Time).
Implicit Types (order : list (string * Svc)).

Lemma Check_is_Some_iff now order w :
  order ≡ₚ map_to_list (services w) →
  is_Some (mapWatchdogSystem_Check order now w).1
  ↔ ∃ (nm : string) (s : Svc),
      services w !! nm = Some s ∧ nm ≠ "" ∧ (Check now s).1 = false.
Proof.
  intros Hperm. rewrite Check_error, foldl_append_name_empty. split.
  - intros Hsome. case_decide as Hdec; [| by destruct Hsome].
    rewrite drop_empty_nil in Hdec.
    apply not_Forall_Exists in Hdec; [| apply _].
    apply Exists_exists in Hdec as (nm & Hin & Hne).
    apply reported_elem in Hin as (s & Hin & Hfalse).
    exists nm, s. split; [| by split].
    by apply (order_lookup order (services w)).
  - intros (nm & s & Hlook & Hne & Hfalse).
    case_decide as Hdec; [by eexists |]. exfalso.
    apply drop_empty_nil in Hdec.
    apply Hne. eapply (proj1 (Forall_forall _ _) Hdec).
    apply reported_elem. exists s. split; [| exact Hfalse].
    by apply (order_lookup order (services w)).
Qed.

Lemma Check_terminated now order w :
  terminated (mapWatchdogSystem_Check order now w).2 = terminated w.
Proof.
  unfold mapWatchdogSystem_Check.
  by destruct (Check_range now order ("", services w)) as [errors m].
Qed.

(** X9: what decides the answer of [Check]: it is an error exactly when
    some entry with a name that is not empty answers false to
    [service.Check()], and [nil] exactly when every such entry answers
    true; an entry under the empty name never counts. *)
Theorem Check_outcome now order w :
  order ≡ₚ map_to_list (services w) →
  (is_Some (mapWatchdogSystem_Check order now w).1
   ↔ ∃ (nm : string) (s : Svc),
       services w !! nm = Some s ∧ nm ≠ "" ∧ (Check now s).1 = false)
  ∧ ((mapWatchdogSystem_Check order now w).1 = None
     ↔ ∀ (nm : string) (s : Svc),
         services w !! nm = Some s → nm ≠ "" → (Check now s).1 = true).
Proof.
  intros Hperm. split.
  - by apply Check_is_Some_iff.
  - by apply Check_nil_iff.
Qed.


(** X11: on a registry without entries, a new one or one emptied by
    [Remove], [Check] answers [nil] and changes nothing. *)
Theorem Check_empty now order w :
  services w = ∅ →
  order ≡ₚ map_to_list (services w) →
  mapWatchdogSystem_Check order now w = (None, w).
Proof.
  intros Hempty Hperm. rewrite Hempty, map_to_list_empty in Hperm.
  apply Permutation_nil_r in Hperm. subst order.
  unfold mapWatchdogSystem_Check. cbn. f_equal. by destruct w.
Qed.

End CheckOutcome.

(** X12: on a registry of timed services, with no [Whack], [Add] or
    [Remove] in between, a [Check] that answered [nil] answers [nil] at
    every later instant. *)
Theorem Check_nil_later
    (order1 order2 : list (string * timeWatchdogService)) (t1 t2 : Time)
    (w : mapWatchdogSystem timeWatchdogService) :
  order1 ≡ₚ map_to_list (services w) →
  order2 ≡ₚ map_to_list (services w) →
  t1 ≤ t2 →
  (mapWatchdogSystem_Check order1 t1 w).1 = None →
  (mapWatchdogSystem_Check order2 t2
     (mapWatchdogSystem_Check order1 t1 w).2).1 = None.
Proof.
  intros Hperm1 Hperm2 Hle Hnil.
  rewrite Check_frame_pure by done.
  rewrite Check_nil_iff in Hnil by done.
  rewrite Check_nil_iff by done.
  intros nm s Hlook Hne. specialize (Hnil nm s Hlook Hne).
  cbn in *. apply Time_After_lt in Hnil. apply Time_After_lt. lia.
Qed.

Lemma Check_outcome_two_services :
  is_Some
    (mapWatchdogSystem_Check
       [("b", TimeWatchdogService "b" 50 0);
        ("a", TimeWatchdogService "a" 50 0)] 0
       (Add (Add MapWatchdogSystem (TimeWatchdogService "a" 50 0))
          (TimeWatchdogService "b" 50 0))).1.
Proof.
  refine (proj2 (proj1 (Check_outcome 0 _ _ two_services_order)) _).
  exists "a", (TimeWatchdogService "a" 50 0).
  split; [vm_compute; reflexivity | split; [discriminate | reflexivity]].
Defined.


Lemma Check_empty_after_Remove :
  mapWatchdogSystem_Check [] 5
    (Remove (Add MapWatchdogSystem (TimeWatchdogService "db" 50 0))
       (TimeWatchdogService "db" 50 0))
  = (None,
     Remove (Add MapWatchdogSystem (TimeWatchdogService "db" 50 0))
       (TimeWatchdogService "db" 50 0)).
Proof.
  assert (Hempty :
    services
      (Remove (Add MapWatchdogSystem (TimeWatchdogService "db" 50 0))
         (TimeWatchdogService "db" 50 0)) = ∅)
    by (cbn; apply delete_insert_id, lookup_empty).
  apply (Check_empty 5 [] _ Hempty).
  by rewrite Hempty, map_to_list_empty.
Defined.

Lemma Check_nil_later_two_services :
  (mapWatchdogSystem_Check
     [("b", TimeWatchdogService "b" 50 0); ("a", TimeWatchdogService "a" 50 0)]
     80
     (mapWatchdogSystem_Check
        [("b", TimeWatchdogService "b" 50 0);
         ("a", TimeWatchdogService "a" 50 0)] 60
        (Add (Add MapWatchdogSystem (TimeWatchdogService "a" 50 0))
           (TimeWatchdogService "b" 50 0))).2).1
  = None.
Proof.
  apply (Check_nil_later _ _ 60 80 _ two_services_order two_services_order).
  - lia.
  - vm_compute. reflexivity.
Defined.

(** ** How a run of [Watch] ends *)

Section WatchRuns.

Context {Svc : Type} `{WatchdogService Svc}.

Variable range : nat → gmap string Svc → list (string * Svc).
Variable env : nat → world Svc → world Svc.

Implicit Types (wd : world Svc) (period : Duration).

Lemma Watch_step (fuel : nat) period (turn : nat) wd :
  Watch range env (S fuel) period turn wd
  = if terminated (system wd) then (Returned None, wd, [])
    else
      match (mapWatchdogSystem_Check (range turn (services (system wd)))
               (clock wd) (system wd)).1 with
      | Some msg =>
          (Returned (Some msg), checked range turn wd, [CheckEv (Some msg)])
      | None =>
          let '(r, wd', tr) :=
            Watch range env fuel period (S turn)
              (slept range env period turn wd) in
          (r, wd', CheckEv None :: SleepEv period :: tr)
      end.
Proof.
  cbn [Watch]. unfold slept, checked.
  destruct (terminated (system wd)); [reflexivity |].
  by destruct (mapWatchdogSystem_Check _ _ _) as [[msg |] sys'].
Qed.

(** X13: [Watch] returns [nil] only with [terminated] set, and a failure
    only with [terminated] not set: the flag of the system it leaves tells
    which way the run ended. *)
Theorem Watch_return_flag (fuel : nat) period (turn : nat) wd :
  match Watch range env fuel period turn wd with
  | (Returned None, wd', _) => terminated (system wd') = true
  | (Returned (Some _), wd', _) => terminated (system wd') = false
  | (Running, _, _) => True
  end.
Proof.
  revert turn wd. induction fuel as [| fuel IH]; intros turn wd; [done |].
  rewrite Watch_step.
  destruct (terminated (system wd)) eqn:Hterm; [exact Hterm |].
  destruct (mapWatchdogSystem_Check _ _ _).1 as [msg |] eqn:Hchk.
  - cbn. by rewrite Check_terminated.
  - specialize (IH (S turn) (slept range env period turn wd)).
    by destruct (Watch range env fuel period (S turn) _) as [[r wd'] tr].
Qed.

(** X14: a [Terminate] that comes during a sleep ends the run when that
    sleep is over: [Watch] returns [nil] without another check. *)
Theorem Watch_terminated_asleep (fuel : nat) period (turn : nat) wd :
  terminated (system wd) = false →
  (mapWatchdogSystem_Check (range turn (services (system wd)))
     (clock wd) (system wd)).1 = None →
  terminated (system (slept range env period turn wd)) = true →
  Watch range env (S (S fuel)) period turn wd
  = (Returned None, slept range env period turn wd,
     [CheckEv None; SleepEv period]).
Proof.
  intros Hterm Hpass Hstop.
  rewrite Watch_step, Hterm, Hpass.
  by rewrite Watch_step, Hstop.
Qed.

(** X15: [Watch] has no other way out: from a world in which, turn after
    turn, [terminated] is not set and the check passes, it does not
    return, however many turns it is given; it checks and sleeps once a
    turn. *)
Theorem Watch_keeps_running
    (live : world Svc → Prop) (fuel : nat) period (turn : nat) wd :
  (∀ (turn' : nat) wd',
     live wd' →
     terminated (system wd') = false
     ∧ (mapWatchdogSystem_Check (range turn' (services (system wd')))
          (clock wd') (system wd')).1 = None
     ∧ live (slept range env period turn' wd')) →
  live wd →
  (Watch range env fuel period turn wd).1.1 = Running
  ∧ (Watch range env fuel period turn wd).2 = quiet_turns period fuel.
Proof.
  intros Hlive. revert turn wd.
  induction fuel as [| fuel IH]; intros turn wd Hwd; [by split |].
  destruct (Hlive turn wd Hwd) as (Hterm & Hpass & Hnext).
  rewrite Watch_step, Hterm, Hpass.
  destruct (IH (S turn) _ Hnext) as [Hrun Htrace].
  destruct (Watch range env fuel period (S turn) _) as [[r wd'] tr].
  cbn in *. by subst.
Qed.

(** X16: checks are at least a period apart: when the other goroutines
    do not set the clock back, the clock a run ends with is at least the
    one it started with plus one (positive) period for each sleep. *)
Theorem Watch_clock (fuel : nat) period (turn : nat) wd :
  (∀ (turn' : nat) wd', clock wd' ≤ clock (env turn' wd')) →
  clock wd
  + Z.of_nat (sleeps (Watch range env fuel period turn wd).2) * Z.max 0 period
  ≤ clock (Watch range env fuel period turn wd).1.2.
Proof.
  intros Hmono. revert turn wd.
  induction fuel as [| fuel IH]; intros turn wd; [cbn; lia |].
  rewrite Watch_step.
  destruct (terminated (system wd)); [cbn; lia |].
  destruct (mapWatchdogSystem_Check _ _ _).1 as [msg |]; [cbn; lia |].
  specialize (IH (S turn) (slept range env period turn wd)).
  pose proof (Hmono turn (Sleep period (checked range turn wd))) as Hdrift.
  destruct (Watch range env fuel period (S turn) _) as [[r wd'] tr].
  cbn [fst snd sleeps] in *.
  unfold slept in IH. cbn [Sleep checked clock] in Hdrift. lia.
Qed.

End WatchRuns.

Lemma Watch_terminated_asleep_run :
  (Watch (λ _ m, map_to_list m)
     (λ _ wd, {| clock := clock wd; system := Terminate (system wd) |})
     2 10 0
     {| clock := 60;
        system := Add MapWatchdogSystem (TimeWatchdogService "db" 50 0) |}).2
  = [CheckEv None; SleepEv 10].
Proof.
  rewrite (Watch_terminated_asleep (λ _ m, map_to_list m)
             (λ _ wd, {| clock := clock wd;
                         system := Terminate (system wd) |})
             0 10 0
             {| clock := 60;
                system := Add MapWatchdogSystem
                            (TimeWatchdogService "db" 50 0) |}).
  - reflexivity.
  - reflexivity.
  - vm_compute. reflexivity.
  - reflexivity.
Defined.

Lemma Watch_keeps_running_empty :
  (Watch (λ _ m, map_to_list m) (λ _ wd, wd) 3 10 0
     {| clock := 0;
        system := MapWatchdogSystem (Svc := timeWatchdogService) |}).2
  = quiet_turns 10 3.
Proof.
  refine (proj2
    (Watch_keeps_running (λ _ m, map_to_list m) (λ _ wd, wd)
       (λ wd, services (system wd) = ∅ ∧ terminated (system wd) = false)
       3 10 0 {| clock := 0; system := MapWatchdogSystem |} _ _)).
  - intros turn' [clk [term svcs]] [Hempty Hterm]. cbn in Hempty, Hterm.
    subst svcs term. unfold slept, checked. cbn [system services clock].
    rewrite map_to_list_empty. cbn. by repeat split.
  - by split.
Defined.

Lemma Watch_clock_run :
  60 + Z.of_nat
         (sleeps
            (Watch (λ _ m, map_to_list m) (λ _ wd, wd) 3 10 0
               {| clock := 60;
                  system := Add MapWatchdogSystem
                              (TimeWatchdogService "db" 50 0) |}).2)
       * Z.max 0 10
  ≤ clock
      (Watch (λ _ m, map_to_list m) (λ _ wd, wd) 3 10 0
         {| clock := 60;
            system := Add MapWatchdogSystem
                        (TimeWatchdogService "db" 50 0) |}).1.2.
Proof.
  apply (Watch_clock (λ _ m, map_to_list m) (λ _ wd, wd) 3 10 0
           {| clock := 60;
              system := Add MapWatchdogSystem
                          (TimeWatchdogService "db" 50 0) |}).
  intros turn' wd'. apply Z.le_refl.
Defined.

Lemma Remove_by_name_db :
  services
    (Remove (Add MapWatchdogSystem (TimeWatchdogService "db" 50 0))
       (TimeWatchdogService "db" 7 3)) !! "db"
  = None.
Proof.
  refine (proj1 (proj2
    (Remove_by_name MapWatchdogSystem (TimeWatchdogService "db" 7 3)))
    (TimeWatchdogService "db" 50 0) _).
  reflexivity.
Defined.
